(** * POSIX interval timers: the timer-specification parser

    A shallow embedding of [itimerspecFromStr] (src/itimerspec_from_str.c),
    the routine that turns the text ["sec[/nsec][:isec[/insec]]"] into a
    [struct itimerspec], together with the properties the specification
    states about it.

    The C routine works in place: it receives a pointer into a character
    array, searches it with [strchr], overwrites separators with NUL and
    converts the pieces with [atoi].  The embedding keeps that shape: the
    character array is a list of bytes, a pointer is an offset into it, a
    read past the end of the array is a fault ([None]), and the routine
    returns the array as it leaves it next to the structure it fills.

    The timer services themselves ([timer_create], [timer_settime],
    [timer_getoverrun], the delivery of signals) are provided by the
    operating system; the programs of the repository only call them, so
    they are outside this development.  The multi-timer program
    (src/ptmr_sigev_signal.c) is followed through the calls it makes, with
    the answers of the system as an input. *)

From Stdlib Require Import ZArith Lia String Ascii.
From stdpp Require Import base option list.

Local Open Scope Z_scope.

(** ** Characters and the character array *)

Module Char.
Definition NUL : Z := 0.
Definition colon : Z := 58.   (* ':' *)
Definition slash : Z := 47.   (* '/' *)
Definition minus : Z := 45.   (* '-' *)
Definition plus : Z := 43.    (* '+' *)
Definition zero : Z := 48.    (* '0' *)

(** [isspace] and [isdigit] of <ctype.h> in the C locale. *)
Definition isspace (c : Z) : bool := (c =? 32) || ((9 <=? c) && (c <=? 13)).
Definition isdigit (c : Z) : bool := (48 <=? c) && (c <=? 57).
End Char.

(** The bytes of a Rocq string literal, without a terminator. *)
Definition bytes (s : string) : list Z :=
  (fun a => Z.of_nat (nat_of_ascii a)) <$> list_ascii_of_string s.

(** A character array and a store of one character into it; a store outside
    the array is a fault. *)
Abbreviation buffer := (list Z).

Definition store (m : buffer) (p : nat) (c : Z) : option buffer :=
  if decide (p < length m)%nat then Some (<[p := c]> m) else None.

(** ** The C library routines the parser calls

    [strchr] and [atoi] belong to the C library, not to the repository.
    They are written here as ISO C describes them (7.24.5.2, 7.22.1.2); for
    values outside the range of [int], where ISO C leaves [atoi] open, the
    model is glibc's definition [(int) strtol(nptr, NULL, 10)] on LP64:
    [strtol] saturates at the bounds of [long] and the conversion to [int]
    keeps the low 32 bits. *)

(** [strchr]: scan from offset [p]; the match is tested before the
    terminator, as in C.  [Some None] is the NULL result. *)
Fixpoint strchr_scan (l : list Z) (p : nat) (c : Z) : option (option nat) :=
  match l with
  | [] => None
  | x :: l' =>
      if decide (x = c) then Some (Some p)
      else if decide (x = Char.NUL) then Some None
      else strchr_scan l' (S p) c
  end.

Definition strchr (m : buffer) (p : nat) (c : Z) : option (option nat) :=
  strchr_scan (drop p m) p c.

Definition LONG_MAX : Z := 2 ^ 63 - 1.
Definition LONG_MIN : Z := - 2 ^ 63.
Definition INT_MAX : Z := 2 ^ 31 - 1.
Definition INT_MIN : Z := - 2 ^ 31.

(** The digit loop of [strtol], base 10: it stops at the first character
    that is not a digit. *)
Fixpoint digits_scan (l : list Z) (acc : Z) : option Z :=
  match l with
  | [] => None
  | x :: l' =>
      if Char.isdigit x then digits_scan l' (10 * acc + (x - Char.zero))
      else Some acc
  end.

(** The optional sign. *)
Definition sign_scan (l : list Z) : option Z :=
  match l with
  | [] => None
  | x :: l' =>
      if decide (x = Char.minus) then Z.opp <$> digits_scan l' 0
      else if decide (x = Char.plus) then digits_scan l' 0
      else digits_scan l 0
  end.

(** The leading white space. *)
Fixpoint space_scan (l : list Z) : option Z :=
  match l with
  | [] => None
  | x :: l' => if Char.isspace x then space_scan l' else sign_scan l
  end.

Definition clamp_long (z : Z) : Z := Z.max LONG_MIN (Z.min LONG_MAX z).

(** Conversion of a [long] to [int]: the low 32 bits, read as signed. *)
Definition to_int (z : Z) : Z := (z + 2 ^ 31) mod 2 ^ 32 - 2 ^ 31.

Definition strtol (m : buffer) (p : nat) : option Z :=
  clamp_long <$> space_scan (drop p m).

Definition atoi (m : buffer) (p : nat) : option Z :=
  to_int <$> strtol m p.

(** ** The structures of <time.h> *)

Record timespec := { tv_sec : Z; tv_nsec : Z }.
Record itimerspec := { it_interval : timespec; it_value : timespec }.

(** ** The parser *)

(** [*ptr = '\0'] under [if (ptr != NULL)]. *)
Definition terminate_at (m : buffer) (ptr : option nat) : option buffer :=
  match ptr with
  | Some p => store m p Char.NUL
  | None => Some m
  end.

(** [(sptr != NULL) ? atoi(sptr + 1) : 0]. *)
Definition atoi_after (m : buffer) (sptr : option nat) : option Z :=
  match sptr with
  | Some s => atoi m (S s)
  | None => Some 0
  end.

(** [itimerspecFromStr(str, tsp)]: [m] is the array [str] points into and
    [str] the offset of the pointer.  The result is the array after the
    call and the four fields written through [tsp]; every path writes all
    four, so the structure's previous contents do not matter. *)
Definition itimerspecFromStr (m : buffer) (str : nat)
  : option (buffer * itimerspec) :=
  cptr ← strchr m str Char.colon;
  m ← terminate_at m cptr;
  sptr ← strchr m str Char.slash;
  m ← terminate_at m sptr;
  value_sec ← atoi m str;
  value_nsec ← atoi_after m sptr;
  let value := {| tv_sec := value_sec; tv_nsec := value_nsec |} in
  match cptr with
  | None =>
      Some (m, {| it_interval := {| tv_sec := 0; tv_nsec := 0 |};
                  it_value := value |})
  | Some c =>
      sptr ← strchr m (S c) Char.slash;
      m ← terminate_at m sptr;
      interval_sec ← atoi m (S c);
      interval_nsec ← atoi_after m sptr;
      Some (m, {| it_interval := {| tv_sec := interval_sec;
                                    tv_nsec := interval_nsec |};
                  it_value := value |})
  end.

(** The parser applied to a text held in an array of its own: the text
    followed by its terminator. *)
Definition parse (text : list Z) : option itimerspec :=
  snd <$> itimerspecFromStr (text ++ [Char.NUL]) 0.

Definition buffer_after (text : list Z) : option buffer :=
  fst <$> itimerspecFromStr (text ++ [Char.NUL]) 0.

(** ** What the parser computes, as a function of the text

    The text is cut at its first [':'] into the initial part and the
    interval part, and each part at its first ['/'] into a seconds token and
    a nanoseconds token.  Each token is converted as [atoi] converts a
    terminated string. *)

(** The text before the first [c], and the text after it when there is one. *)
Fixpoint split_at (c : Z) (l : list Z) : list Z * option (list Z) :=
  match l with
  | [] => ([], None)
  | x :: l' =>
      if decide (x = c) then ([], Some l')
      else let '(a, b) := split_at c l' in (x :: a, b)
  end.

(** The value [strtol] reads from a token that ends where the list ends. *)
Fixpoint digits_val (l : list Z) (acc : Z) : Z :=
  match l with
  | [] => acc
  | x :: l' =>
      if Char.isdigit x then digits_val l' (10 * acc + (x - Char.zero))
      else acc
  end.

Definition sign_val (l : list Z) : Z :=
  match l with
  | [] => 0
  | x :: l' =>
      if decide (x = Char.minus) then - digits_val l' 0
      else if decide (x = Char.plus) then digits_val l' 0
      else digits_val l 0
  end.

Fixpoint space_val (l : list Z) : Z :=
  match l with
  | [] => 0
  | x :: l' => if Char.isspace x then space_val l' else sign_val l
  end.

Definition atoi_val (tok : list Z) : Z := to_int (clamp_long (space_val tok)).

Definition zero_time : timespec := {| tv_sec := 0; tv_nsec := 0 |}.

Definition part_value (part : list Z) : timespec :=
  let '(sec, nsec) := split_at Char.slash part in
  {| tv_sec := atoi_val sec; tv_nsec := from_option atoi_val 0 nsec |}.

Definition spec_value (text : list Z) : itimerspec :=
  let '(value, interval) := split_at Char.colon text in
  {| it_interval := from_option part_value zero_time interval;
     it_value := part_value value |}.

(** The text as the parser leaves it: the first [c] of a part overwritten
    with NUL. *)
Definition cut (c : Z) (l : list Z) : list Z :=
  match split_at c l with
  | (a, Some b) => a ++ Char.NUL :: b
  | (a, None) => a
  end.

Definition cut_text (text : list Z) : list Z :=
  match split_at Char.colon text with
  | (value, Some interval) =>
      cut Char.slash value ++ Char.NUL :: cut Char.slash interval
  | (value, None) => cut Char.slash value
  end.

(** ** Tokens and fields *)

(** The four numeric fields of the structure. *)
Inductive field := value_sec | value_nsec | interval_sec | interval_nsec.

Definition get (f : field) (ts : itimerspec) : Z :=
  match f with
  | value_sec => tv_sec (it_value ts)
  | value_nsec => tv_nsec (it_value ts)
  | interval_sec => tv_sec (it_interval ts)
  | interval_nsec => tv_nsec (it_interval ts)
  end.

(** The token of the text that feeds a field: [None] when the grammar's
    optional component is absent. *)
Definition token (f : field) (text : list Z) : option (list Z) :=
  let '(value, interval) := split_at Char.colon text in
  match f with
  | value_sec => Some (fst (split_at Char.slash value))
  | value_nsec => snd (split_at Char.slash value)
  | interval_sec => (fun i => fst (split_at Char.slash i)) <$> interval
  | interval_nsec => interval ≫= (fun i => snd (split_at Char.slash i))
  end.

(** Texts of the grammar [sec[/nsec][:isec[/insec]]], built from tokens. *)
Definition part_text (sec : list Z) (nsec : option (list Z)) : list Z :=
  sec ++ from_option (fun n => Char.slash :: n) [] nsec.

Definition spec_text (sec : list Z) (nsec : option (list Z))
    (interval : option (list Z * option (list Z))) : list Z :=
  part_text sec nsec
  ++ from_option (fun '(i, j) => Char.colon :: part_text i j) [] interval.

(** A decimal integer: one or more ASCII digits.  [decimal] is its value. *)
Definition decimal (tok : list Z) : Z :=
  fold_left (fun acc x => 10 * acc + (x - Char.zero)) tok 0.

Definition is_decimal (tok : list Z) : bool :=
  negb (bool_decide (tok = [])) && forallb Char.isdigit tok.

(** A decimal integer that an [int] can hold. *)
Definition decimal_token (tok : list Z) : bool :=
  is_decimal tok && (decimal tok <=? INT_MAX).

(** A well-formed specification: every token present is a decimal integer
    (of any size for [all_decimal], within [int] for [well_formed]). *)
Definition tokens_satisfy (P : list Z -> bool) (sec : list Z)
    (nsec : option (list Z)) (interval : option (list Z * option (list Z)))
  : bool :=
  P sec && from_option P true nsec
  && from_option (fun '(i, j) => P i && from_option P true j) true interval.

Definition all_decimal := tokens_satisfy is_decimal.
Definition well_formed := tokens_satisfy decimal_token.

(** The structure the grammar assigns to a well-formed text. *)
Definition denoted_part (sec : list Z) (nsec : option (list Z)) : timespec :=
  {| tv_sec := decimal sec; tv_nsec := from_option decimal 0 nsec |}.

Definition denoted (sec : list Z) (nsec : option (list Z))
    (interval : option (list Z * option (list Z))) : itimerspec :=
  {| it_interval := from_option (fun '(i, j) => denoted_part i j) zero_time interval;
     it_value := denoted_part sec nsec |}.

(** A token whose whole text is an integer: an optional sign and one or
    more digits. *)
Definition valid_integer (tok : list Z) : bool :=
  match tok with
  | x :: tok' =>
      if decide (x = Char.minus \/ x = Char.plus) then is_decimal tok'
      else is_decimal tok
  | [] => false
  end.

(** A token that starts with an integer, as [atoi] sees it: white space,
    an optional sign, then a digit. *)
Definition signed_leading_digit (l : list Z) : bool :=
  match l with
  | x :: l' =>
      if decide (x = Char.minus \/ x = Char.plus)
      then from_option Char.isdigit false (head l')
      else Char.isdigit x
  | [] => false
  end.

Fixpoint leading_integer (l : list Z) : bool :=
  match l with
  | x :: l' =>
      if Char.isspace x then leading_integer l' else signed_leading_digit l
  | [] => false
  end.

(** A text without the character [c]. *)
Definition lacks (c : Z) (l : list Z) : Prop := Forall (fun x => x <> c) l.

(** ** What the parser does to the caller's text *)

(** A byte after the call, next to the byte before it: kept, or a separator
    overwritten with NUL. *)
Definition overwritten (x' x : Z) : Prop :=
  x' = x \/ (x' = Char.NUL /\ (x = Char.colon \/ x = Char.slash)).

(** ** The seconds token of the initial part *)


(** ** The multi-timer program (src/ptmr_sigev_signal.c)

    [main] and [handler] talk to the operating system.  The program is
    written here as the sequence of calls it makes; what the system answers
    to each call is an input ([host]), so a statement over all hosts covers
    every way the system can answer. *)

Module Ptmr.

Inductive signal := SIGUSR1.
Inductive clockid := CLOCK_REALTIME.
Inductive notify := SIGEV_SIGNAL.
Inductive sa_flag := SA_SIGINFO.
Inductive status := EXIT_SUCCESS | EXIT_FAILURE.

(** [#define TIMER_SIG SIGUSR1]. *)
Definition TIMER_SIG : signal := SIGUSR1.

(** A call the program makes.  A pointer into [tidlist] is the index of the
    slot it points to; [old_value] of [timer_settime] is [None] for NULL. *)
Inductive call :=
| usage_message (argv0 : option (list Z))
| calloc (count : nat)
| sigaction (sig : signal) (flags : sa_flag)
| print_setting (sec nsec : Z)
| timer_create (clock : clockid) (sigev_notify : notify)
    (sigev_signo : signal) (sival_ptr : nat)
| print_created (number : Z) (id : Z)
| timer_settime (id : Z) (flags : Z) (new_value : itimerspec)
    (old_value : option nat)
| perror (msg : string)
| print_received (sig : Z) (time : list Z)
| print_timer_id (id : Z)
| timer_getoverrun (id : Z)
| print_overrun (count : Z).

(** How a run of [main] ends: [exit], the endless [for (;;) pause();], or an
    access outside an array. *)
Inductive outcome := exited (s : status) | pausing | fault.

(** The calls of a run in order, the array [tidlist] as the run leaves it,
    and how the run ends. *)
Record run := { calls : list call; tidlist : list Z; result : outcome }.

(** The answers of the system: whether [calloc] and [sigaction] succeed,
    the id [timer_create] stores in the [j]-th iteration ([None]: it
    returns -1), whether [timer_settime] succeeds in the [j]-th iteration,
    and what [timer_getoverrun] returns for an id. *)
Record host := {
  calloc_ok : bool;
  sigaction_ok : bool;
  created : nat -> option Z;
  armed : nat -> bool;
  overrun : Z -> Z }.

Definition stop (cs : list call) (tids : list Z) (o : outcome) : run :=
  {| calls := cs; tidlist := tids; result := o |}.

Definition after (cs : list call) (r : run) : run :=
  {| calls := cs ++ calls r; tidlist := tidlist r; result := result r |}.

(** The loop [for (j = 0; j < argc - 1; j++)] from iteration [j] on, with
    the arguments still to be handled. *)
Fixpoint arm_timers (h : host) (j : nat) (args : list (list Z))
    (tids : list Z) : run :=
  match args with
  | [] => stop [] tids pausing
  | arg :: args =>
      match parse arg with
      | None => stop [] tids fault
      | Some ts =>
          let setting :=
            print_setting (tv_sec (it_value ts)) (tv_nsec (it_value ts)) in
          let create := timer_create CLOCK_REALTIME SIGEV_SIGNAL TIMER_SIG j in
          match created h j with
          | None =>
              stop [setting; create; perror "timer_create"] tids
                (exited EXIT_FAILURE)
          | Some id =>
              let tids := <[j := id]> tids in
              match tids !! j with
              | None => stop [setting; create] tids fault
              | Some tid =>
                  let arm :=
                    [setting; create; print_created (Z.of_nat j + 1) tid;
                     timer_settime tid 0 ts None] in
                  if armed h j then after arm (arm_timers h (S j) args tids)
                  else stop (arm ++ [perror "timer_settime"]) tids
                         (exited EXIT_FAILURE)
              end
          end
      end
  end.

(** [main(argc, argv)], with [argc = length argv]. *)
Definition main (h : host) (argv : list (list Z)) : run :=
  if decide (length argv < 2)%nat then
    stop [usage_message (argv !! 0%nat)] [] (exited EXIT_FAILURE)
  else
    let count := (length argv - 1)%nat in
    if calloc_ok h then
      let tids := replicate count 0 in
      if sigaction_ok h then
        after [calloc count; sigaction TIMER_SIG SA_SIGINFO]
          (arm_timers h 0 (drop 1 argv) tids)
      else
        stop [calloc count; sigaction TIMER_SIG SA_SIGINFO; perror "sigaction"]
          tids (exited EXIT_FAILURE)
    else stop [calloc count; perror "malloc"] [] (exited EXIT_FAILURE).


(** The [timer_settime] calls among the calls of a run. *)
Definition is_timer_settime (c : call) : bool :=
  match c with timer_settime _ _ _ _ => true | _ => false end.

Definition settime_calls (cs : list call) : list call :=
  List.filter is_timer_settime cs.

Definition is_timer_create (c : call) : bool :=
  match c with timer_create _ _ _ _ => true | _ => false end.

End Ptmr.

(** * Lemmas *)

Example parse_full :
  parse (bytes "5/500000000:2/100000000")
  = Some {| it_interval := {| tv_sec := 2; tv_nsec := 100000000 |};
            it_value := {| tv_sec := 5; tv_nsec := 500000000 |} |}.
Proof. vm_compute. reflexivity. Qed.

Example parse_seconds_only :
  parse (bytes "5")
  = Some {| it_interval := {| tv_sec := 0; tv_nsec := 0 |};
            it_value := {| tv_sec := 5; tv_nsec := 0 |} |}.
Proof. vm_compute. reflexivity. Qed.

(** ** The library routines on a terminated string *)

(** Equalities between layouts of the array, and between offsets into it. *)
Ltac layout :=
  repeat rewrite <- app_assoc; repeat rewrite length_app; simpl;
  first [ reflexivity | lia ].

(** One statement of the parser has run: replace it by its result. *)
Ltac ran H := rewrite H; cbn [mbind option_bind].

Section Library.
Implicit Types (pre a tok text tail : list Z) (m : buffer) (p : nat) (c : Z).

Lemma strchr_scan_found a c tail p :
  lacks c a -> lacks Char.NUL a ->
  strchr_scan (a ++ c :: tail) p c = Some (Some (p + length a)%nat).
Proof.
  unfold lacks.
  intros Hc Hn; revert p.
  induction a as [|x a IH]; intros p; cbn [app strchr_scan length].
  - rewrite decide_True by reflexivity. do 2 f_equal. lia.
  - inversion Hc; inversion Hn; subst.
    rewrite decide_False by assumption.
    rewrite decide_False by assumption.
    rewrite IH by assumption. do 2 f_equal. lia.
Qed.

Lemma strchr_scan_absent a c tail p :
  c <> Char.NUL -> lacks c a ->
  strchr_scan (a ++ Char.NUL :: tail) p c = Some None.
Proof.
  unfold lacks.
  intros Hc0 Hc; revert p.
  induction a as [|x a IH]; intros p; cbn [app strchr_scan].
  - rewrite decide_False by congruence.
    rewrite decide_True by reflexivity. reflexivity.
  - inversion Hc; subst.
    rewrite decide_False by assumption.
    destruct (decide (x = Char.NUL)); [reflexivity | auto].
Qed.

Lemma strchr_found m p pre a c tail :
  m = pre ++ a ++ c :: tail -> p = length pre ->
  lacks c a -> lacks Char.NUL a ->
  strchr m p c = Some (Some (length pre + length a)%nat).
Proof.
  unfold lacks.
  intros -> -> Hc Hn. unfold strchr.
  rewrite drop_app_length. apply strchr_scan_found; assumption.
Qed.

Lemma strchr_absent m p pre a c tail :
  m = pre ++ a ++ Char.NUL :: tail -> p = length pre ->
  c <> Char.NUL -> lacks c a ->
  strchr m p c = Some None.
Proof.
  unfold lacks.
  intros -> -> Hc0 Hc. unfold strchr.
  rewrite drop_app_length. apply strchr_scan_absent; assumption.
Qed.

Lemma store_at m p pre x tail c :
  m = pre ++ x :: tail -> p = length pre ->
  store m p c = Some (pre ++ c :: tail).
Proof.
  intros -> ->. unfold store.
  rewrite decide_True by (rewrite length_app; simpl; lia).
  f_equal. rewrite insert_app_r_alt by lia.
  rewrite Nat.sub_diag. reflexivity.
Qed.

Lemma digits_scan_token tok tail acc :
  digits_scan (tok ++ Char.NUL :: tail) acc = Some (digits_val tok acc).
Proof.
  revert acc. induction tok as [|x tok IH]; intros acc; simpl.
  - reflexivity.
  - destruct (Char.isdigit x); [apply IH | reflexivity].
Qed.

Lemma sign_scan_token tok tail :
  sign_scan (tok ++ Char.NUL :: tail) = Some (sign_val tok).
Proof.
  destruct tok as [|x tok]; cbn [app sign_scan sign_val].
  - reflexivity.
  - repeat case_decide.
    + rewrite digits_scan_token. reflexivity.
    + apply digits_scan_token.
    + apply (digits_scan_token (x :: tok)).
Qed.

Lemma space_scan_token tok tail :
  space_scan (tok ++ Char.NUL :: tail) = Some (space_val tok).
Proof.
  induction tok as [|x tok IH]; cbn [app space_scan space_val].
  - reflexivity.
  - destruct (Char.isspace x); [apply IH |].
    apply (sign_scan_token (x :: tok)).
Qed.

Lemma atoi_token m p pre tok tail :
  m = pre ++ tok ++ Char.NUL :: tail -> p = length pre ->
  atoi m p = Some (atoi_val tok).
Proof.
  intros -> ->. unfold atoi, strtol.
  rewrite drop_app_length, space_scan_token. reflexivity.
Qed.

(** [split_at] names the first occurrence. *)
Lemma split_at_Some c l a b :
  split_at c l = (a, Some b) ->
  l = a ++ c :: b /\ lacks c a.
Proof.
  unfold lacks.
  revert a. induction l as [|x l IH]; intros a; simpl; [discriminate|].
  case_decide.
  - intros [= <- <-]. subst. split; [reflexivity | constructor].
  - destruct (split_at c l) as [a' b'] eqn:E. intros [= <- ->].
    destruct (IH a' eq_refl) as [-> Ha]. split; [reflexivity|].
    constructor; assumption.
Qed.

Lemma split_at_None c l a :
  split_at c l = (a, None) -> l = a /\ lacks c a.
Proof.
  unfold lacks.
  revert a. induction l as [|x l IH]; intros a; simpl.
  - intros [= <-]. split; [reflexivity | constructor].
  - case_decide; [discriminate|].
    destruct (split_at c l) as [a' b'] eqn:E. intros [= <- ->].
    destruct (IH a' eq_refl) as [-> Ha]. split; [reflexivity|].
    constructor; assumption.
Qed.

Lemma split_at_first c a b :
  lacks c a -> split_at c (a ++ c :: b) = (a, Some b).
Proof.
  unfold lacks.
  induction 1 as [|x a Hx _ IH]; simpl.
  - rewrite decide_True by reflexivity. reflexivity.
  - rewrite decide_False by assumption. rewrite IH. reflexivity.
Qed.

Lemma split_at_none c a :
  lacks c a -> split_at c a = (a, None).
Proof.
  unfold lacks.
  induction 1 as [|x a Hx _ IH]; simpl.
  - reflexivity.
  - rewrite decide_False by assumption. rewrite IH. reflexivity.
Qed.

(** Every text with a [':'] splits at its first one. *)
Lemma first_colon text :
  Char.colon ∈ text ->
  exists value interval,
    text = value ++ Char.colon :: interval /\ lacks Char.colon value.
Proof.
  intros Hin. destruct (split_at Char.colon text) as [a [b|]] eqn:E.
  - apply split_at_Some in E. eauto.
  - apply split_at_None in E as [-> Ha]. unfold lacks in Ha.
    rewrite Forall_forall in Ha. destruct (Ha _ Hin). reflexivity.
Qed.
End Library.

(** ** The parser refines the function of the text *)

Section Refinement.
Implicit Types (pre part text tail : list Z) (p : nat).

Lemma timespec_eta (t : timespec) :
  {| tv_sec := tv_sec t; tv_nsec := tv_nsec t |} = t.
Proof. destruct t; reflexivity. Qed.

Lemma cut_length c l : length (cut c l) = length l.
Proof.
  unfold cut. destruct (split_at c l) as [a [b|]] eqn:E.
  - apply split_at_Some in E as [-> _]. rewrite !length_app. reflexivity.
  - apply split_at_None in E as [-> _]. reflexivity.
Qed.

Lemma cut_text_length text : length (cut_text text) = length text.
Proof.
  unfold cut_text. destruct (split_at Char.colon text) as [a [b|]] eqn:E.
  - apply split_at_Some in E as [-> _].
    rewrite !length_app. simpl. rewrite !cut_length. reflexivity.
  - apply split_at_None in E as [-> _]. apply cut_length.
Qed.

(** Lines 13-19 and 26-31 of the source: one part, starting at [p] and
    terminated, is cut at its first ['/'] and its two tokens converted. *)
Lemma part_steps m p pre part tail :
  m = pre ++ part ++ Char.NUL :: tail -> p = length pre ->
  lacks Char.NUL part ->
  exists sptr,
    strchr m p Char.slash = Some sptr /\
    terminate_at m sptr = Some (pre ++ cut Char.slash part ++ Char.NUL :: tail) /\
    atoi (pre ++ cut Char.slash part ++ Char.NUL :: tail) p
      = Some (tv_sec (part_value part)) /\
    atoi_after (pre ++ cut Char.slash part ++ Char.NUL :: tail) sptr
      = Some (tv_nsec (part_value part)).
Proof.
  unfold lacks. intros Hm Hp Hnul. unfold cut, part_value.
  destruct (split_at Char.slash part) as [a [b|]] eqn:E.
  - apply split_at_Some in E as [-> Ha].
    apply Forall_app in Hnul as [Ha0 Hb0].
    exists (Some (length pre + length a)%nat). repeat split.
    + eapply strchr_found; [| eassumption | assumption | assumption].
      subst m. layout.
    + cbn [terminate_at].
      rewrite (store_at m _ (pre ++ a) Char.slash (b ++ Char.NUL :: tail));
        [f_equal; layout | subst m; layout | layout].
    + eapply atoi_token; [| eassumption]. layout.
    + cbn [atoi_after tv_nsec from_option].
      eapply (atoi_token _ _ (pre ++ a ++ [Char.NUL])); layout.
  - apply split_at_None in E as [-> Ha].
    exists None. repeat split.
    + eapply strchr_absent; [eassumption | assumption | discriminate | assumption].
    + cbn [terminate_at]. congruence.
    + eapply atoi_token; [| eassumption]. reflexivity.
Qed.

(** The parser on a terminated string that starts at [length pre]:
    it returns, leaves the bytes before and after the string alone, and
    fills the structure with [spec_value]. *)
Theorem itimerspecFromStr_refines pre text tail :
  lacks Char.NUL text ->
  itimerspecFromStr (pre ++ text ++ Char.NUL :: tail) (length pre)
  = Some (pre ++ cut_text text ++ Char.NUL :: tail, spec_value text).
Proof.
  unfold lacks. intros Hnul. unfold itimerspecFromStr, cut_text, spec_value.
  destruct (split_at Char.colon text) as [a [b|]] eqn:E.
  - apply split_at_Some in E as [-> Ha].
    apply Forall_app in Hnul as [Ha0 Hb0]. inversion Hb0 as [|? ? _ Hb0']; subst.
    rewrite (strchr_found _ _ pre a Char.colon (b ++ Char.NUL :: tail));
      [| layout | reflexivity | assumption | assumption].
    cbn [mbind option_bind terminate_at].
    rewrite (store_at _ _ (pre ++ a) Char.colon (b ++ Char.NUL :: tail));
      [| layout | layout].
    cbn [mbind option_bind].
    destruct (part_steps ((pre ++ a) ++ Char.NUL :: b ++ Char.NUL :: tail)
                (length pre) pre a (b ++ Char.NUL :: tail))
      as (sptr & H1 & H2 & H3 & H4); [layout | reflexivity | assumption |].
    ran H1. ran H2. ran H3. ran H4.
    destruct (part_steps (pre ++ cut Char.slash a ++ Char.NUL :: b ++ Char.NUL :: tail)
                (S (length pre + length a))
                (pre ++ cut Char.slash a ++ [Char.NUL]) b tail)
      as (sptr' & H1' & H2' & H3' & H4');
      [layout | rewrite !length_app, cut_length; simpl; lia | assumption |].
    ran H1'. ran H2'. ran H3'. ran H4'.
    cbn [from_option].
    rewrite !timespec_eta. do 2 f_equal. layout.
  - apply split_at_None in E as [-> Ha].
    rewrite (strchr_absent _ _ pre a Char.colon tail);
      [| reflexivity | reflexivity | discriminate | assumption].
    cbn [mbind option_bind terminate_at].
    destruct (part_steps (pre ++ a ++ Char.NUL :: tail) (length pre) pre a tail)
      as (sptr & H1 & H2 & H3 & H4); [reflexivity | reflexivity | assumption |].
    ran H1. ran H2. ran H3. ran H4.
    cbn [from_option]. rewrite timespec_eta. reflexivity.
Qed.

Corollary parse_spec_value text :
  lacks Char.NUL text -> parse text = Some (spec_value text).
Proof.
  intros H. unfold parse.
  pose proof (itimerspecFromStr_refines [] text [] H) as E.
  cbn [app length] in E. rewrite E. reflexivity.
Qed.

Corollary buffer_after_cut_text text :
  lacks Char.NUL text ->
  buffer_after text = Some (cut_text text ++ [Char.NUL]).
Proof.
  intros H. unfold buffer_after.
  pose proof (itimerspecFromStr_refines [] text [] H) as E.
  cbn [app length] in E. rewrite E. reflexivity.
Qed.
End Refinement.

(** ** Tokens and fields *)

Section Tokens.
Implicit Types (tok text : list Z) (f : field).

Lemma get_spec_value f text :
  get f (spec_value text) = from_option atoi_val 0 (token f text).
Proof.
  unfold spec_value, token, part_value.
  destruct (split_at Char.colon text) as [v [i|]]; simpl;
    destruct (split_at Char.slash v) as [s n];
    try destruct (split_at Char.slash i) as [s' n'];
    destruct f; reflexivity.
Qed.

Lemma isdigit_range x : Char.isdigit x = true -> 48 <= x <= 57.
Proof. unfold Char.isdigit. lia. Qed.

Lemma to_int_id z : INT_MIN <= z <= INT_MAX -> to_int (clamp_long z) = z.
Proof.
  unfold to_int, clamp_long, INT_MIN, INT_MAX, LONG_MIN, LONG_MAX.
  intros H. rewrite Z.min_r, Z.max_r by lia.
  rewrite Z.mod_small by lia. lia.
Qed.

Lemma to_int_range z : INT_MIN <= to_int z <= INT_MAX.
Proof.
  unfold to_int, INT_MIN, INT_MAX.
  pose proof (Z.mod_pos_bound (z + 2 ^ 31) (2 ^ 32) ltac:(lia)). lia.
Qed.

Lemma atoi_val_range tok : INT_MIN <= atoi_val tok <= INT_MAX.
Proof. apply to_int_range. Qed.

(** The digit loop reads the digits [d] and stops at what follows them. *)
Lemma digits_val_prefix d rest acc :
  forallb Char.isdigit d = true ->
  from_option Char.isdigit false (head rest) = false ->
  digits_val (d ++ rest) acc
  = fold_left (fun acc x => 10 * acc + (x - Char.zero)) d acc.
Proof.
  intros Hd Hrest. revert acc Hd.
  induction d as [|x d IH]; intros acc; cbn [app forallb fold_left].
  - intros _. destruct rest as [|y rest]; [reflexivity|].
    cbn in Hrest. cbn [digits_val]. rewrite Hrest. reflexivity.
  - intros [Hx Hd]%andb_true_iff. cbn [digits_val]. rewrite Hx. apply IH, Hd.
Qed.

Lemma fold_digits_nonneg tok acc :
  forallb Char.isdigit tok = true -> 0 <= acc ->
  0 <= fold_left (fun acc x => 10 * acc + (x - Char.zero)) tok acc.
Proof.
  revert acc. induction tok as [|x tok IH]; intros acc; simpl; [auto|].
  intros [Hx Htok]%andb_true_iff Hacc. apply IH; [assumption|].
  apply isdigit_range in Hx. unfold Char.zero. lia.
Qed.

Lemma space_val_prefix d rest :
  is_decimal d = true ->
  from_option Char.isdigit false (head rest) = false ->
  space_val (d ++ rest) = decimal d.
Proof.
  unfold is_decimal. intros [Hne Hd]%andb_true_iff Hrest.
  destruct d as [|x d]; [discriminate|].
  pose proof Hd as [Hx _]%andb_true_iff. apply isdigit_range in Hx.
  cbn [app space_val sign_val].
  replace (Char.isspace x) with false by (unfold Char.isspace; lia).
  rewrite !decide_False by (unfold Char.minus, Char.plus; lia).
  apply (digits_val_prefix (x :: d)); assumption.
Qed.

(** [atoi] on a decimal integer within [int], followed by anything that is
    not a digit, yields the integer's value. *)
Lemma atoi_val_prefix d rest :
  decimal_token d = true ->
  from_option Char.isdigit false (head rest) = false ->
  atoi_val (d ++ rest) = decimal d.
Proof.
  unfold decimal_token. intros [Hd Hmax]%andb_true_iff Hrest.
  unfold atoi_val. rewrite space_val_prefix by assumption.
  apply to_int_id. split; [|lia].
  apply andb_true_iff in Hd as [_ Hd].
  pose proof (fold_digits_nonneg d 0 Hd ltac:(lia)).
  unfold decimal, INT_MIN. lia.
Qed.

Lemma atoi_val_decimal tok :
  decimal_token tok = true -> atoi_val tok = decimal tok.
Proof.
  intros H. rewrite <- (app_nil_r tok) at 1.
  apply atoi_val_prefix; [assumption | reflexivity].
Qed.

(** [atoi] on a token that does not start with an integer yields 0. *)
Lemma atoi_val_no_integer tok :
  leading_integer tok = false -> atoi_val tok = 0.
Proof.
  intros H. unfold atoi_val.
  enough (space_val tok = 0) as -> by reflexivity.
  induction tok as [|x tok IH]; [reflexivity|].
  cbn [space_val leading_integer] in *.
  destruct (Char.isspace x); [auto|].
  cbn [sign_val signed_leading_digit] in *.
  destruct (decide (x = Char.minus)) as [->|Hm].
  - rewrite decide_True in H by auto.
    destruct tok as [|y tok]; [reflexivity|]. cbn in H. simpl. rewrite H.
    reflexivity.
  - destruct (decide (x = Char.plus)) as [->|Hp].
    + rewrite decide_True in H by auto.
      destruct tok as [|y tok]; [reflexivity|]. cbn in H. simpl. rewrite H.
      reflexivity.
    + rewrite decide_False in H by tauto. simpl. rewrite H. reflexivity.
Qed.
(** A token that is an integer as a whole starts with one: the tokens
    without a leading integer are all outside the valid integers. *)
Lemma valid_integer_leading tok :
  valid_integer tok = true -> leading_integer tok = true.
Proof.
  destruct tok as [|x tok]; [discriminate|].
  cbn [valid_integer leading_integer signed_leading_digit].
  destruct (decide (x = Char.minus \/ x = Char.plus)) as [Hx|Hx].
  - replace (Char.isspace x) with false
      by (unfold Char.isspace, Char.minus, Char.plus in *; lia).
    unfold is_decimal. destruct tok as [|y tok]; [discriminate|].
    cbn. intros [Hy _]%andb_true_iff. exact Hy.
  - unfold is_decimal. cbn. intros [Hd _]%andb_true_iff.
    pose proof (isdigit_range _ Hd).
    replace (Char.isspace x) with false by (unfold Char.isspace; lia).
    exact Hd.
Qed.

Example empty_token_no_integer : leading_integer [] = false.
Proof. reflexivity. Qed.

Example letters_no_integer : leading_integer (bytes "abc") = false.
Proof. reflexivity. Qed.

Example decimal_value : decimal (bytes "500000000") = 500000000.
Proof. reflexivity. Qed.
End Tokens.

(** ** Texts built from tokens *)

Section Grammar.
Implicit Types (sec tok text : list Z) (nsec : option (list Z))
  (interval : option (list Z * option (list Z))).

Lemma digits_lack c tok :
  Char.isdigit c = false -> forallb Char.isdigit tok = true -> lacks c tok.
Proof.
  intros Hc. induction tok as [|x tok IH]; simpl; [constructor|].
  intros [Hx Htok]%andb_true_iff. constructor; [congruence | exact (IH Htok)].
Qed.

Lemma part_value_part_text sec nsec :
  lacks Char.slash sec ->
  part_value (part_text sec nsec)
  = {| tv_sec := atoi_val sec; tv_nsec := from_option atoi_val 0 nsec |}.
Proof.
  intros H. unfold part_value, part_text. destruct nsec as [n|]; simpl.
  - rewrite split_at_first by assumption. reflexivity.
  - rewrite app_nil_r, split_at_none by assumption. reflexivity.
Qed.

Lemma part_text_lacks c sec nsec :
  c <> Char.slash -> lacks c sec -> from_option (lacks c) True nsec ->
  lacks c (part_text sec nsec).
Proof.
  intros Hc Hs Hn. unfold part_text, lacks. apply Forall_app. split; [assumption|].
  destruct nsec as [n|]; simpl; constructor; [congruence | assumption].
Qed.

Lemma spec_value_spec_text sec nsec interval :
  lacks Char.slash sec -> lacks Char.colon sec ->
  from_option (lacks Char.colon) True nsec ->
  from_option (fun '(i, _) => lacks Char.slash i) True interval ->
  spec_value (spec_text sec nsec interval)
  = {| it_interval :=
         from_option
           (fun '(i, j) => {| tv_sec := atoi_val i;
                              tv_nsec := from_option atoi_val 0 j |})
           zero_time interval;
       it_value := {| tv_sec := atoi_val sec;
                      tv_nsec := from_option atoi_val 0 nsec |} |}.
Proof.
  intros Hs Hc Hn Hi. unfold spec_value, spec_text.
  assert (lacks Char.colon (part_text sec nsec)) as Hpart
    by (apply part_text_lacks; [discriminate | assumption | assumption]).
  destruct interval as [[i j]|]; simpl.
  - rewrite split_at_first by assumption. simpl.
    rewrite !part_value_part_text by assumption. reflexivity.
  - rewrite app_nil_r, split_at_none by assumption. simpl.
    rewrite part_value_part_text by assumption. reflexivity.
Qed.

Lemma spec_text_lacks_NUL sec nsec interval :
  lacks Char.NUL sec -> from_option (lacks Char.NUL) True nsec ->
  from_option
    (fun '(i, j) => lacks Char.NUL i /\ from_option (lacks Char.NUL) True j)
    True interval ->
  lacks Char.NUL (spec_text sec nsec interval).
Proof.
  intros Hs Hn Hi. unfold spec_text, lacks. apply Forall_app. split.
  - apply part_text_lacks; [discriminate | assumption | assumption].
  - destruct interval as [[i j]|]; simpl; constructor; [discriminate|].
    destruct Hi. apply part_text_lacks; [discriminate | assumption | assumption].
Qed.

Lemma is_decimal_digits tok :
  is_decimal tok = true -> forallb Char.isdigit tok = true.
Proof. unfold is_decimal. intros [_ H]%andb_true_iff. exact H. Qed.

Lemma decimal_token_digits tok :
  decimal_token tok = true -> forallb Char.isdigit tok = true.
Proof.
  unfold decimal_token. intros [H _]%andb_true_iff.
  apply is_decimal_digits, H.
Qed.

Lemma tokens_satisfy_inv (P : list Z -> bool) sec nsec interval :
  tokens_satisfy P sec nsec interval = true ->
  P sec = true /\
  from_option (fun t => P t = true) True nsec /\
  from_option
    (fun '(i, j) => P i = true /\ from_option (fun t => P t = true) True j)
    True interval.
Proof.
  unfold tokens_satisfy.
  destruct nsec as [n|], interval as [[i [j|]]|]; cbn [from_option];
    rewrite ?andb_true_iff; tauto.
Qed.

(** On a well-formed text every field is the value of its token. *)
Lemma parse_denoted sec nsec interval :
  well_formed sec nsec interval = true ->
  parse (spec_text sec nsec interval) = Some (denoted sec nsec interval).
Proof.
  intros (Hs & Hn & Hi)%tokens_satisfy_inv.
  assert (forall c tok, Char.isdigit c = false ->
            decimal_token tok = true -> lacks c tok) as L
    by (intros; eapply digits_lack; eauto using decimal_token_digits).
  destruct nsec as [n|], interval as [[i [j|]]|]; cbn [from_option] in *;
    repeat match goal with H : _ /\ _ |- _ => destruct H end;
    (rewrite parse_spec_value;
     [ rewrite spec_value_spec_text; cbn [from_option]; auto;
       unfold denoted, denoted_part; cbn [from_option];
       rewrite ?atoi_val_decimal by assumption; reflexivity
     | apply spec_text_lacks_NUL; cbn [from_option]; auto ]).
Qed.
End Grammar.

(** ** The caller's text after the call *)

Section Frame.
Implicit Types (l text : list Z) (c : Z).

Lemma overwritten_same l : Forall2 overwritten l l.
Proof. induction l; constructor; [left; reflexivity | assumption]. Qed.

Lemma cut_overwritten c l :
  c = Char.colon \/ c = Char.slash -> Forall2 overwritten (cut c l) l.
Proof.
  intros Hc. unfold cut. destruct (split_at c l) as [a [b|]] eqn:E.
  - apply split_at_Some in E as [-> _].
    apply Forall2_app; [apply overwritten_same|].
    constructor; [right; auto | apply overwritten_same].
  - apply split_at_None in E as [-> _]. apply overwritten_same.
Qed.

Lemma cut_text_overwritten text : Forall2 overwritten (cut_text text) text.
Proof.
  unfold cut_text. destruct (split_at Char.colon text) as [a [b|]] eqn:E.
  - apply split_at_Some in E as [-> _].
    apply Forall2_app; [apply cut_overwritten; auto|].
    constructor; [right; auto | apply cut_overwritten; auto].
  - apply split_at_None in E as [-> _]. apply cut_overwritten; auto.
Qed.

Lemma cut_text_same text :
  lacks Char.colon text -> lacks Char.slash text -> cut_text text = text.
Proof.
  intros Hc Hs. unfold cut_text, cut.
  rewrite (split_at_none _ _ Hc), (split_at_none _ _ Hs). reflexivity.
Qed.
Example cut_text_full :
  cut_text (bytes "1/2:3/4") = [49; 0; 50; 0; 51; 0; 52].
Proof. reflexivity. Qed.
End Frame.

(** * The claims of the specification *)

(** C1, as amended.  For every well-formed text ["S[/N][:I[/J]]"] whose
    tokens are decimal integers not above [INT_MAX = 2147483647], the parser
    returns initial delay (S, N) and interval (I, J), and a field whose
    optional token is absent is 0. *)
Theorem parse_well_formed sec nsec interval :
  well_formed sec nsec interval = true ->
  parse (spec_text sec nsec interval) = Some (denoted sec nsec interval).
Proof. apply parse_denoted. Qed.

Lemma parse_well_formed_witness :
  (well_formed (bytes "5") (Some (bytes "500000000"))
     (Some (bytes "2", Some (bytes "100000000"))) = true
   /\ parse (bytes "5/500000000:2/100000000")
      = Some {| it_interval := {| tv_sec := 2; tv_nsec := 100000000 |};
                it_value := {| tv_sec := 5; tv_nsec := 500000000 |} |})
  /\ (well_formed (bytes "5") None None = true
      /\ parse (bytes "5")
         = Some {| it_interval := {| tv_sec := 0; tv_nsec := 0 |};
                   it_value := {| tv_sec := 5; tv_nsec := 0 |} |}).
Proof.
  split; (split; [vm_compute; reflexivity|]).
  - apply (parse_well_formed (bytes "5") (Some (bytes "500000000"))
             (Some (bytes "2", Some (bytes "100000000")))).
    vm_compute. reflexivity.
  - apply (parse_well_formed (bytes "5") None None).
    vm_compute. reflexivity.
Defined.

(** C1 as the specification words it fails: a decimal integer that does not
    fit [int] is not returned.  The text ["2147483648/0:0/0"] is made of
    decimal integers only, and its seconds come back as -2147483648. *)
Lemma parse_decimal_above_int :
  let sec := bytes "2147483648" in
  let nsec := Some (bytes "0") in
  let interval := Some (bytes "0", Some (bytes "0")) in
  spec_text sec nsec interval = bytes "2147483648/0:0/0"
  /\ all_decimal sec nsec interval = true
  /\ denoted sec nsec interval
     = {| it_interval := {| tv_sec := 0; tv_nsec := 0 |};
          it_value := {| tv_sec := 2147483648; tv_nsec := 0 |} |}
  /\ parse (spec_text sec nsec interval)
     = Some {| it_interval := {| tv_sec := 0; tv_nsec := 0 |};
               it_value := {| tv_sec := -2147483648; tv_nsec := 0 |} |}
  /\ parse (spec_text sec nsec interval) <> Some (denoted sec nsec interval).
Proof.
  cbv zeta. repeat split; try (vm_compute; reflexivity).
  vm_compute. discriminate.
Qed.

(** C5, as amended.  For every text, each field is exactly what [atoi]
    reads from the field's own token, stored as it is: 0 when the token is
    absent, N for a decimal token N not above [INT_MAX], and always within
    the range of [int].  No nanoseconds value is carried into the seconds. *)
Theorem parse_fields_stored_as_read text :
  lacks Char.NUL text ->
  exists ts,
    parse text = Some ts /\
    forall f,
      get f ts = from_option atoi_val 0 (token f text) /\
      INT_MIN <= get f ts <= INT_MAX /\
      (token f text = None -> get f ts = 0) /\
      (forall tok, token f text = Some tok -> decimal_token tok = true ->
                   get f ts = decimal tok).
Proof.
  intros H. exists (spec_value text). split; [apply parse_spec_value, H|].
  intros f. rewrite get_spec_value. repeat split.
  - destruct (token f text); [apply atoi_val_range | vm_compute; discriminate].
  - destruct (token f text); [apply atoi_val_range | vm_compute; discriminate].
  - intros ->. reflexivity.
  - intros tok -> Htok. apply atoi_val_decimal, Htok.
Qed.

Lemma parse_fields_stored_as_read_witness :
  lacks Char.NUL (bytes "1/2000000000") /\
  exists ts,
    parse (bytes "1/2000000000") = Some ts /\
    forall f,
      get f ts = from_option atoi_val 0 (token f (bytes "1/2000000000")) /\
      INT_MIN <= get f ts <= INT_MAX /\
      (token f (bytes "1/2000000000") = None -> get f ts = 0) /\
      (forall tok, token f (bytes "1/2000000000") = Some tok ->
                   decimal_token tok = true -> get f ts = decimal tok).
Proof.
  assert (lacks Char.NUL (bytes "1/2000000000")) as H
    by (unfold lacks; compute_done).
  split; [exact H | apply (parse_fields_stored_as_read _ H)].
Defined.

(** C5 as the specification words it fails: ["1/2000000000"] yields
    nanoseconds 2000000000, not below 1_000_000_000, and seconds 1. *)
Lemma parse_nsec_not_normalized :
  parse (bytes "1/2000000000")
  = Some {| it_interval := {| tv_sec := 0; tv_nsec := 0 |};
            it_value := {| tv_sec := 1; tv_nsec := 2000000000 |} |}
  /\ ~ (forall ts, parse (bytes "1/2000000000") = Some ts ->
          tv_nsec (it_value ts) < 1000000000).
Proof.
  split; [vm_compute; reflexivity|].
  intros H. specialize (H _ eq_refl). vm_compute in H. discriminate.
Qed.

(** C6, as amended.  The parser returns on every terminated string, and
    the structure it fills depends on the text alone.  It does write to the
    caller's text: the first [':'] of the text and the first ['/'] of each
    part are overwritten with NUL ([cut_text]).  The string keeps its length
    and every other byte; bytes before the string and after its terminator
    are left alone, and a text without separators is left unchanged. *)
Theorem itimerspecFromStr_total_and_frame pre text tail :
  lacks Char.NUL text ->
  exists ts,
    itimerspecFromStr (pre ++ text ++ Char.NUL :: tail) (length pre)
    = Some (pre ++ cut_text text ++ Char.NUL :: tail, ts) /\
    parse text = Some ts /\
    Forall2 overwritten (cut_text text) text /\
    (lacks Char.colon text -> lacks Char.slash text -> cut_text text = text).
Proof.
  intros H. exists (spec_value text). repeat split.
  - apply itimerspecFromStr_refines, H.
  - apply parse_spec_value, H.
  - apply cut_text_overwritten.
  - apply cut_text_same.
Qed.

Lemma itimerspecFromStr_total_and_frame_witness :
  lacks Char.NUL (bytes "5/3:2") /\
  exists ts,
    itimerspecFromStr (bytes "7:" ++ bytes "5/3:2" ++ Char.NUL :: bytes "9/")
      (length (bytes "7:"))
    = Some (bytes "7:" ++ cut_text (bytes "5/3:2") ++ Char.NUL :: bytes "9/",
            ts) /\
    parse (bytes "5/3:2") = Some ts /\
    Forall2 overwritten (cut_text (bytes "5/3:2")) (bytes "5/3:2") /\
    (lacks Char.colon (bytes "5/3:2") -> lacks Char.slash (bytes "5/3:2") ->
     cut_text (bytes "5/3:2") = bytes "5/3:2").
Proof.
  assert (lacks Char.NUL (bytes "5/3:2")) as H by (unfold lacks; compute_done).
  split; [exact H|].
  apply (itimerspecFromStr_total_and_frame (bytes "7:") (bytes "5/3:2")
           (bytes "9/") H).
Defined.

(** C6 as the specification words it fails: the call changes its input.
    On ["5:2"] the [':'] is overwritten with NUL. *)
Lemma itimerspecFromStr_writes_input :
  exists m ts,
    itimerspecFromStr (bytes "5:2" ++ [Char.NUL]) 0 = Some (m, ts) /\
    m = [53; 0; 50; 0] /\
    m <> bytes "5:2" ++ [Char.NUL].
Proof.
  eexists _, _. split; [vm_compute; reflexivity|].
  split; [reflexivity | vm_compute; discriminate].
Qed.

(** C7, as amended.  The parser never fails.  A field whose token does not
    start with an integer (after white space and an optional sign there is
    no digit: the token is empty or not numeric) is 0; a field whose token
    starts with a decimal integer within [int] and goes on with something
    else has the value of that integer. *)
Theorem parse_lenient text f :
  lacks Char.NUL text ->
  exists ts,
    parse text = Some ts /\
    (forall tok, token f text = Some tok -> leading_integer tok = false ->
                 get f ts = 0) /\
    (forall d rest, token f text = Some (d ++ rest) ->
                    decimal_token d = true ->
                    from_option Char.isdigit false (head rest) = false ->
                    get f ts = decimal d).
Proof.
  intros H. exists (spec_value text). split; [apply parse_spec_value, H|].
  split.
  - intros tok Htok Hlead. rewrite get_spec_value, Htok.
    apply atoi_val_no_integer, Hlead.
  - intros d rest Htok Hd Hrest. rewrite get_spec_value, Htok.
    apply atoi_val_prefix; assumption.
Qed.

Lemma parse_lenient_witness :
  lacks Char.NUL (bytes "abc/:x") /\
  exists ts,
    parse (bytes "abc/:x") = Some ts /\
    (forall tok, token value_nsec (bytes "abc/:x") = Some tok ->
                 leading_integer tok = false -> get value_nsec ts = 0) /\
    (forall d rest, token value_nsec (bytes "abc/:x") = Some (d ++ rest) ->
                    decimal_token d = true ->
                    from_option Char.isdigit false (head rest) = false ->
                    get value_nsec ts = decimal d).
Proof.
  assert (lacks Char.NUL (bytes "abc/:x")) as H by (unfold lacks; compute_done).
  split; [exact H | apply (parse_lenient _ value_nsec H)].
Defined.

(** C7 as the specification words it fails: a token that is not a valid
    integer need not yield 0.  ["5x"] is not an integer, and the seconds
    field is 5. *)
Lemma parse_reads_integer_prefix :
  token value_sec (bytes "5x") = Some (bytes "5x")
  /\ valid_integer (bytes "5x") = false
  /\ parse (bytes "5x")
     = Some {| it_interval := {| tv_sec := 0; tv_nsec := 0 |};
               it_value := {| tv_sec := 5; tv_nsec := 0 |} |}
  /\ ~ (forall ts, parse (bytes "5x") = Some ts -> get value_sec ts = 0).
Proof.
  repeat split; try (vm_compute; reflexivity).
  intros H. specialize (H _ eq_refl). vm_compute in H. discriminate.
Qed.

(** C9.  When the text has a [':'], the initial delay is read from the text
    before the first [':'] alone: whatever follows, the initial delay is the
    value of that prefix, and when the prefix has no ['/'] its nanoseconds
    are 0 and its seconds are the prefix's value, whether or not the
    interval part has a ['/']. *)
Theorem parse_slash_search_confined value interval :
  lacks Char.NUL value -> lacks Char.NUL interval ->
  lacks Char.colon value ->
  exists ts,
    parse (value ++ Char.colon :: interval) = Some ts /\
    it_value ts = part_value value /\
    it_interval ts = part_value interval /\
    (lacks Char.slash value ->
     it_value ts = {| tv_sec := atoi_val value; tv_nsec := 0 |}).
Proof.
  intros Hv Hi Hc. exists (spec_value (value ++ Char.colon :: interval)).
  split.
  - apply parse_spec_value, Forall_app. split; [assumption|].
    constructor; [discriminate | assumption].
  - unfold spec_value. rewrite split_at_first by assumption.
    cbn [from_option it_value it_interval]. repeat split.
    intros Hs. unfold part_value. rewrite split_at_none by assumption.
    reflexivity.
Qed.

Lemma parse_slash_search_confined_witness :
  lacks Char.NUL (bytes "5") /\ lacks Char.NUL (bytes "2/7") /\
  lacks Char.colon (bytes "5") /\ lacks Char.slash (bytes "5") /\
  parse (bytes "5:2/7")
  = Some {| it_interval := {| tv_sec := 2; tv_nsec := 7 |};
            it_value := {| tv_sec := 5; tv_nsec := 0 |} |}.
Proof.
  assert (lacks Char.NUL (bytes "5")) as Hv by (unfold lacks; compute_done).
  assert (lacks Char.NUL (bytes "2/7")) as Hi by (unfold lacks; compute_done).
  assert (lacks Char.colon (bytes "5")) as Hc by (unfold lacks; compute_done).
  assert (lacks Char.slash (bytes "5")) as Hs by (unfold lacks; compute_done).
  repeat (split; [assumption|]).
  destruct (parse_slash_search_confined (bytes "5") (bytes "2/7") Hv Hi Hc)
    as (ts & Hparse & Hval & Hint & Hnsec).
  change (bytes "5:2/7") with (bytes "5" ++ Char.colon :: bytes "2/7").
  rewrite Hparse. f_equal. destruct ts as [i v]. cbn in *.
  rewrite (Hnsec Hs), Hint. reflexivity.
Defined.

(** C10.  The parser checks neither range nor sign: on ["-5/-1"] the
    seconds and nanoseconds of the initial delay are negative. *)
Theorem parse_negative_fields :
  exists ts,
    parse (bytes "-5/-1") = Some ts /\
    it_value ts = {| tv_sec := -5; tv_nsec := -1 |} /\
    tv_sec (it_value ts) < 0 /\ tv_nsec (it_value ts) < 0.
Proof.
  eexists. split; [vm_compute; reflexivity|].
  cbn. repeat split; lia.
Qed.

(** * Further properties of the parser *)

Section Again.
Implicit Types (pre text tail : list Z) (c : Z).






End Again.



(** X2.  Text after the interval's nanoseconds is ignored: when all four
    tokens are decimal integers within [int], anything that follows them and
    does not start with a digit (a third [':'] component, a unit, white
    space) leaves the result as it is without it. *)
Theorem parse_ignores_trailing_text sec nsec i j junk :
  well_formed sec (Some nsec) (Some (i, Some j)) = true ->
  lacks Char.NUL junk ->
  from_option Char.isdigit false (head junk) = false ->
  parse (spec_text sec (Some nsec) (Some (i, Some j)) ++ junk)
  = Some (denoted sec (Some nsec) (Some (i, Some j))).
Proof.
  intros (Hs & Hn & Hi & Hj)%tokens_satisfy_inv Hjunk Hhead.
  cbn [from_option] in *.
  assert (forall c tok, Char.isdigit c = false ->
            decimal_token tok = true -> lacks c tok) as L
    by (intros; eapply digits_lack; eauto using decimal_token_digits).
  replace (spec_text sec (Some nsec) (Some (i, Some j)) ++ junk)
    with (spec_text sec (Some nsec) (Some (i, Some (j ++ junk))))
    by (unfold spec_text, part_text; cbn [from_option];
        repeat (rewrite <- app_assoc; cbn [app]); reflexivity).
  rewrite parse_spec_value.
  - rewrite spec_value_spec_text; cbn [from_option]; auto.
    unfold denoted, denoted_part; cbn [from_option].
    rewrite (atoi_val_decimal sec), (atoi_val_decimal nsec),
      (atoi_val_decimal i), (atoi_val_prefix j) by assumption.
    reflexivity.
  - apply spec_text_lacks_NUL; cbn [from_option]; auto.
    split; [auto|]. unfold lacks in *. apply Forall_app. auto.
Qed.

Lemma parse_ignores_trailing_text_witness :
  parse (bytes "5/3:2/7:9/9")
  = Some {| it_interval := {| tv_sec := 2; tv_nsec := 7 |};
            it_value := {| tv_sec := 5; tv_nsec := 3 |} |}.
Proof.
  apply (parse_ignores_trailing_text (bytes "5") (bytes "3") (bytes "2")
           (bytes "7") (bytes ":9/9")).
  - vm_compute. reflexivity.
  - unfold lacks. compute_done.
  - vm_compute. reflexivity.
Defined.

Section Signs.
Implicit Types (d rest : list Z).

(** [atoi] on a minus sign followed by a decimal integer. *)
Lemma atoi_val_minus d rest :
  is_decimal d = true -> decimal d <= 2 ^ 31 ->
  from_option Char.isdigit false (head rest) = false ->
  atoi_val (Char.minus :: d ++ rest) = - decimal d.
Proof.
  intros Hd Hmax Hrest. unfold atoi_val.
  pose proof (is_decimal_digits _ Hd) as Hdigits.
  replace (space_val (Char.minus :: d ++ rest)) with (- decimal d).
  - pose proof (fold_digits_nonneg d 0 Hdigits ltac:(lia)).
    apply to_int_id. unfold decimal, INT_MIN, INT_MAX in *. lia.
  - cbn [space_val sign_val].
    change (Char.isspace Char.minus) with false. cbn match.
    rewrite decide_True by reflexivity.
    rewrite digits_val_prefix by assumption. reflexivity.
Qed.
End Signs.

(** X3.  No field is checked for its sign: for every text and every field,
    a token that is a minus sign followed by a decimal integer of at most
    2147483648 yields the negated value. *)
Theorem parse_minus_token text f d rest :
  lacks Char.NUL text ->
  token f text = Some (Char.minus :: d ++ rest) ->
  is_decimal d = true -> decimal d <= 2 ^ 31 ->
  from_option Char.isdigit false (head rest) = false ->
  exists ts, parse text = Some ts /\ get f ts = - decimal d.
Proof.
  intros H Htok Hd Hmax Hrest. exists (spec_value text).
  split; [apply parse_spec_value, H|].
  rewrite get_spec_value, Htok. apply atoi_val_minus; assumption.
Qed.

Lemma parse_minus_token_witness :
  exists ts,
    parse (bytes "1:2/-2147483648") = Some ts /\
    get interval_nsec ts = - decimal (bytes "2147483648").
Proof.
  apply (parse_minus_token (bytes "1:2/-2147483648") interval_nsec
           (bytes "2147483648") []).
  - unfold lacks. compute_done.
  - vm_compute. reflexivity.
  - vm_compute. reflexivity.
  - vm_compute. discriminate.
  - reflexivity.
Defined.

(** * The multi-timer program *)

Import Ptmr.

Section Program.
Context (h : host).
Implicit Types (args argv tids : list (list Z)) (j : nat).

(** One iteration of the loop, for an argument that is a terminated string
    and a slot inside [tidlist]. *)
Lemma arm_timers_cons j arg args (tids : list Z) :
  lacks Char.NUL arg -> (j < length tids)%nat ->
  arm_timers h j (arg :: args) tids
  = let ts := spec_value arg in
    let setting :=
      print_setting (tv_sec (it_value ts)) (tv_nsec (it_value ts)) in
    let create := timer_create CLOCK_REALTIME SIGEV_SIGNAL TIMER_SIG j in
    match created h j with
    | None =>
        stop [setting; create; perror "timer_create"] tids (exited EXIT_FAILURE)
    | Some id =>
        let arm :=
          [setting; create; print_created (Z.of_nat j + 1) id;
           timer_settime id 0 ts None] in
        if armed h j
        then after arm (arm_timers h (S j) args (<[j := id]> tids))
        else stop (arm ++ [perror "timer_settime"]) (<[j := id]> tids)
               (exited EXIT_FAILURE)
    end.
Proof.
  intros Harg Hj. cbn [arm_timers]. rewrite parse_spec_value by assumption.
  cbv zeta. destruct (created h j) as [id|]; [|reflexivity].
  rewrite list_lookup_insert_eq by assumption. reflexivity.
Qed.

(** The loop writes slot [j] and the slots after it, nothing else. *)
Lemma arm_timers_tidlist args : forall j (tids : list Z),
  length (tidlist (arm_timers h j args tids)) = length tids /\
  forall i, (i < j)%nat -> tidlist (arm_timers h j args tids) !! i = tids !! i.
Proof.
  induction args as [|arg args IH]; intros j tids; [split; reflexivity|].
  cbn [arm_timers]. destruct (parse arg) as [ts|]; [|split; reflexivity].
  destruct (created h j) as [id|]; [|split; reflexivity].
  assert (forall i, (i < j)%nat -> <[j := id]> tids !! i = tids !! i) as Hframe
    by (intros i Hi; apply list_lookup_insert_ne; lia).
  destruct (<[j := id]> tids !! j) as [tid|];
    [|split; [apply length_insert | exact Hframe]].
  destruct (armed h j); [|split; [apply length_insert | exact Hframe]].
  cbn [after tidlist]. destruct (IH (S j) (<[j := id]> tids)) as [Hlen Hkeep].
  split; [rewrite Hlen; apply length_insert|].
  intros i Hi. rewrite Hkeep by lia. apply Hframe, Hi.
Qed.

(** The loop ends in the endless pause exactly when every creation and
    every arming succeeds; otherwise it exits with failure. *)
Lemma arm_timers_result args : forall j (tids : list Z),
  Forall (lacks Char.NUL) args -> (j + length args = length tids)%nat ->
  (result (arm_timers h j args tids) = pausing <->
   forall i, (i < length args)%nat ->
     is_Some (created h (j + i)) /\ armed h (j + i) = true) /\
  (result (arm_timers h j args tids) <> pausing ->
   result (arm_timers h j args tids) = exited EXIT_FAILURE).
Proof.
  induction args as [|arg args IH]; intros j tids Hargs Hlen.
  - cbn. split; [|congruence]. split; [intros _ i Hi; lia | reflexivity].
  - inversion Hargs as [|? ? Harg Hargs']; subst. cbn [length] in Hlen.
    rewrite arm_timers_cons by (assumption || lia). cbv zeta.
    destruct (created h j) as [id|] eqn:Hc.
    + destruct (armed h j) eqn:Ha.
      * cbn [after result].
        destruct (IH (S j) (<[j := id]> tids) Hargs') as [[IH1 IH2] IH3];
          [rewrite length_insert; lia|].
        split; [|exact IH3]. split.
        -- intros Hp i Hi. destruct i as [|i].
           ++ rewrite Nat.add_0_r, Hc, Ha. split; [eauto | reflexivity].
           ++ replace (j + S i)%nat with (S j + i)%nat by lia.
              apply IH1; [assumption | cbn [length] in Hi; lia].
        -- intros Hall. apply IH2. intros i Hi.
           replace (S j + i)%nat with (j + S i)%nat by lia.
           apply Hall. cbn [length]. lia.
      * cbn [stop result]. split; [|reflexivity]. split; [discriminate|].
        intros Hall. destruct (Hall 0%nat ltac:(cbn [length]; lia)) as [_ Hf].
        rewrite Nat.add_0_r in Hf. congruence.
    + cbn [stop result]. split; [|reflexivity]. split; [discriminate|].
      intros Hall. destruct (Hall 0%nat ltac:(cbn [length]; lia)) as [[id Hf] _].
      rewrite Nat.add_0_r in Hf. congruence.
Qed.

(** Every [timer_settime] call of the loop: the [i]-th one is made for the
    [i]-th argument, with the specification parsed from it, on the id that
    [timer_create] stored in that iteration, which is still in its slot. *)
Lemma arm_timers_settime args : forall j (tids : list Z) i c,
  Forall (lacks Char.NUL) args -> (j + length args = length tids)%nat ->
  settime_calls (calls (arm_timers h j args tids)) !! i = Some c ->
  exists id arg ts,
    args !! i = Some arg /\ parse arg = Some ts /\
    created h (j + i) = Some id /\
    c = timer_settime id 0 ts None /\
    tidlist (arm_timers h j args tids) !! (j + i)%nat = Some id.
Proof.
  induction args as [|arg args IH]; intros j tids i c Hargs Hlen;
    [cbn; discriminate|].
  inversion Hargs as [|? ? Harg Hargs']; subst. cbn [length] in Hlen.
  rewrite arm_timers_cons by (assumption || lia). cbv zeta.
  destruct (created h j) as [id|] eqn:Hc; [|cbn; discriminate].
  assert (<[j := id]> tids !! j = Some id) as Hslot
    by (apply list_lookup_insert_eq; lia).
  destruct (armed h j) eqn:Ha.
  - cbn [after calls tidlist]. cbn [app settime_calls List.filter is_timer_settime].
    destruct i as [|i].
    + intros [= <-]. exists id, arg, (spec_value arg).
      rewrite Nat.add_0_r. repeat split; auto using parse_spec_value.
      destruct (arm_timers_tidlist args (S j) (<[j := id]> tids)) as [_ Hkeep].
      rewrite Hkeep by lia. exact Hslot.
    + intros Hi. fold (settime_calls (calls (arm_timers h (S j) args (<[j := id]> tids)))) in Hi.
      cbn [lookup list_lookup] in Hi.
      destruct (IH (S j) (<[j := id]> tids) i c Hargs') as (id' & arg' & ts' & H1 & H2 & H3 & H4 & H5);
        [rewrite length_insert; lia | exact Hi |].
      exists id', arg', ts'.
      replace (j + S i)%nat with (S j + i)%nat by lia. auto.
  - cbn [stop calls tidlist]. cbn [app settime_calls List.filter is_timer_settime].
    destruct i as [|i]; [|cbn; discriminate].
    intros [= <-]. exists id, arg, (spec_value arg).
    rewrite Nat.add_0_r. repeat split; auto using parse_spec_value.
Qed.

(** When the loop reaches the pause, it has created and armed one timer for
    each argument. *)
Lemma arm_timers_all args : forall j (tids : list Z),
  Forall (lacks Char.NUL) args -> (j + length args = length tids)%nat ->
  result (arm_timers h j args tids) = pausing ->
  length (settime_calls (calls (arm_timers h j args tids))) = length args /\
  forall i, (i < length args)%nat ->
    timer_create CLOCK_REALTIME SIGEV_SIGNAL TIMER_SIG (j + i)
    ∈ calls (arm_timers h j args tids).
Proof.
  induction args as [|arg args IH]; intros j tids Hargs Hlen.
  - cbn. split; [reflexivity | intros; lia].
  - inversion Hargs as [|? ? Harg Hargs']; subst. cbn [length] in Hlen.
    rewrite arm_timers_cons by (assumption || lia). cbv zeta.
    destruct (created h j) as [id|]; [|discriminate].
    destruct (armed h j); [|discriminate].
    cbn [after calls result]. intros Hp.
    destruct (IH (S j) (<[j := id]> tids) Hargs') as [IH1 IH2];
      [rewrite length_insert; lia | assumption |].
    split.
    + cbn [app settime_calls List.filter is_timer_settime length].
      f_equal. exact IH1.
    + intros i Hi. destruct i as [|i].
      * rewrite Nat.add_0_r. cbn [app]. rewrite !elem_of_cons. auto.
      * replace (j + S i)%nat with (S j + i)%nat by lia.
        apply elem_of_app. right. apply IH2. cbn [length] in Hi. lia.
Qed.
End Program.

Section Main.
Context (h : host).
Implicit Types (argv : list (list Z)).


(** The run of [main] once the array is allocated and the handler
    installed. *)
Lemma main_loop argv :
  (2 <= length argv)%nat -> calloc_ok h = true -> sigaction_ok h = true ->
  main h argv
  = after [calloc (length argv - 1); sigaction TIMER_SIG SA_SIGINFO]
      (arm_timers h 0 (drop 1 argv) (replicate (length argv - 1) 0)).
Proof.
  intros Hn Hc Hs. unfold main. rewrite decide_False by lia.
  rewrite Hc, Hs. reflexivity.
Qed.

(** A run that pauses has gone through the loop. *)
Lemma main_pausing argv :
  result (main h argv) = pausing ->
  (2 <= length argv)%nat /\ calloc_ok h = true /\ sigaction_ok h = true.
Proof.
  unfold main. case_decide; [discriminate|].
  destruct (calloc_ok h); [|discriminate].
  destruct (sigaction_ok h); [|discriminate].
  intros _. repeat split. lia.
Qed.

Lemma settime_calls_after_setup count (r : run) :
  settime_calls
    (calls (after [calloc count; sigaction TIMER_SIG SA_SIGINFO] r))
  = settime_calls (calls r).
Proof. reflexivity. Qed.

Lemma main_loop_sizes argv :
  (0 + length (drop 1 argv) = length (replicate (length argv - 1) (0 : Z)))%nat.
Proof. rewrite length_drop, length_replicate. reflexivity. Qed.
End Main.

(** X4.  [main] ends in the endless pause exactly when there is at least
    one timer argument and the allocation, the installation of the handler,
    every [timer_create] and every [timer_settime] succeed.  In every other
    case it exits with [EXIT_FAILURE]: it never exits with success and never
    reaches outside [tidlist]. *)
Theorem main_pauses_iff_all_succeed h argv :
  Forall (lacks Char.NUL) argv ->
  (result (main h argv) = pausing <->
   (2 <= length argv)%nat /\ calloc_ok h = true /\ sigaction_ok h = true /\
   forall j, (j < length argv - 1)%nat ->
     is_Some (created h j) /\ armed h j = true) /\
  (result (main h argv) <> pausing ->
   result (main h argv) = exited EXIT_FAILURE).
Proof.
  intros Hargv.
  pose proof (arm_timers_result h (drop 1 argv) 0
                (replicate (length argv - 1) 0) (Forall_drop _ _ _ Hargv)
                (main_loop_sizes argv)) as [Hiff Hfail].
  rewrite length_drop in Hiff. cbn [Nat.add] in Hiff.
  split; [split|].
  - intros Hp. destruct (main_pausing h argv Hp) as (Hn & Hc & Hs).
    repeat split; try assumption.
    + apply Hiff; [|assumption]. rewrite main_loop in Hp by assumption.
      exact Hp.
    + apply Hiff; [|assumption]. rewrite main_loop in Hp by assumption.
      exact Hp.
  - intros (Hn & Hc & Hs & Hall). rewrite main_loop by assumption.
    cbn [after result]. apply Hiff, Hall.
  - unfold main. case_decide; [reflexivity|].
    destruct (calloc_ok h); [|reflexivity].
    destruct (sigaction_ok h); [|reflexivity].
    exact Hfail.
Qed.

Lemma main_pauses_iff_all_succeed_witness :
  let h := {| calloc_ok := true; sigaction_ok := true;
              created := fun j => Some (Z.of_nat j + 7); armed := fun _ => true;
              overrun := fun _ => 0 |} in
  let argv := [bytes "ptmr"; bytes "5:2"; bytes "1/5"] in
  Forall (lacks Char.NUL) argv /\ result (main h argv) = pausing.
Proof.
  intros h argv.
  assert (Forall (lacks Char.NUL) argv) as H
    by (repeat constructor; unfold lacks; compute_done).
  split; [exact H|].
  apply (main_pauses_iff_all_succeed h argv H).
  split; [cbn; lia|]. split; [reflexivity|]. split; [reflexivity|].
  intros j _. split; [eexists; reflexivity | reflexivity].
Defined.

(** X5.  Timers are armed in the order of the arguments, each one once:
    the [i]-th [timer_settime] call of any run is made for argument [i + 1],
    with the specification parsed from that argument, relative (flags 0),
    with a NULL [old_value], on the id that [timer_create] stored in that
    iteration.  A run that reaches the pause has made one such call for
    each timer argument. *)
Theorem main_arms_each_argument h argv :
  Forall (lacks Char.NUL) argv ->
  (forall i c,
     settime_calls (calls (main h argv)) !! i = Some c ->
     exists id arg ts,
       argv !! S i = Some arg /\ parse arg = Some ts /\
       created h i = Some id /\ c = timer_settime id 0 ts None) /\
  (result (main h argv) = pausing ->
   length (settime_calls (calls (main h argv))) = (length argv - 1)%nat).
Proof.
  intros Hargv. split.
  - intros i c. unfold main. case_decide; [cbn; discriminate|].
    destruct (calloc_ok h); [|cbn; discriminate].
    destruct (sigaction_ok h); [|cbn; discriminate].
    cbn [after calls app settime_calls List.filter is_timer_settime].
    intros Hi.
    destruct (arm_timers_settime h (drop 1 argv) 0 _ i c
                (Forall_drop _ _ _ Hargv) (main_loop_sizes argv) Hi)
      as (id & arg & ts & H1 & H2 & H3 & H4 & _).
    rewrite lookup_drop in H1. eauto 10.
  - intros Hp. destruct (main_pausing h argv Hp) as (Hn & Hc & Hs).
    rewrite main_loop in * by assumption.
    rewrite settime_calls_after_setup. cbn [after result] in Hp.
    destruct (arm_timers_all h (drop 1 argv) 0 _
                (Forall_drop _ _ _ Hargv) (main_loop_sizes argv) Hp) as [-> _].
    apply length_drop.
Qed.

Lemma main_arms_each_argument_witness :
  let h := {| calloc_ok := true; sigaction_ok := true;
              created := fun j => Some (Z.of_nat j + 7); armed := fun j => (j =? 0)%nat;
              overrun := fun _ => 0 |} in
  let argv := [bytes "ptmr"; bytes "5:2"; bytes "1/5"; bytes "9"] in
  Forall (lacks Char.NUL) argv /\
  settime_calls (calls (main h argv))
  = [timer_settime 7 0 {| it_interval := {| tv_sec := 2; tv_nsec := 0 |};
                          it_value := {| tv_sec := 5; tv_nsec := 0 |} |} None;
     timer_settime 8 0 {| it_interval := {| tv_sec := 0; tv_nsec := 0 |};
                          it_value := {| tv_sec := 1; tv_nsec := 5 |} |} None] /\
  (forall i c,
     settime_calls (calls (main h argv)) !! i = Some c ->
     exists id arg ts,
       argv !! S i = Some arg /\ parse arg = Some ts /\
       created h i = Some id /\ c = timer_settime id 0 ts None).
Proof.
  intros h argv.
  assert (Forall (lacks Char.NUL) argv) as H
    by (repeat constructor; unfold lacks; compute_done).
  split; [exact H|]. split; [vm_compute; reflexivity|].
  apply (main_arms_each_argument h argv H).
Defined.



(** X7.  No timer is created before the handler of its signal is in place:
    in every run, each [timer_create] call comes after the [calloc] of the
    id array and after the [sigaction] that installs the handler for
    [TIMER_SIG], and both of these succeeded. *)
Theorem timers_created_after_handler h argv pre c post :
  calls (main h argv) = pre ++ c :: post ->
  is_timer_create c = true ->
  calloc (length argv - 1) ∈ pre /\
  sigaction TIMER_SIG SA_SIGINFO ∈ pre /\
  calloc_ok h = true /\ sigaction_ok h = true.
Proof.
  intros Hcalls Hc.
  assert (forall cs, Forall (fun x => is_timer_create x = false) cs ->
            cs = pre ++ c :: post -> False) as Hnone.
  { intros cs Hcs ->. apply Forall_app in Hcs as [_ Hcs].
    inversion Hcs; congruence. }
  unfold main in Hcalls. case_decide.
  { exfalso. eapply Hnone; [|exact Hcalls]. repeat constructor. }
  destruct (calloc_ok h).
  2:{ exfalso. eapply Hnone; [|exact Hcalls]. repeat constructor. }
  destruct (sigaction_ok h).
  2:{ exfalso. eapply Hnone; [|exact Hcalls]. repeat constructor. }
  cbn [after calls app] in Hcalls.
  destruct pre as [|p1 [|p2 pre]]; simplify_eq/=.
  rewrite !elem_of_cons. auto.
Qed.

Lemma timers_created_after_handler_witness :
  let h := {| calloc_ok := true; sigaction_ok := true;
              created := fun j => None; armed := fun _ => true;
              overrun := fun _ => 0 |} in
  let argv := [bytes "ptmr"; bytes "5:2"] in
  let pre := [calloc 1; sigaction TIMER_SIG SA_SIGINFO; print_setting 5 0] in
  calloc (length argv - 1) ∈ pre /\
  sigaction TIMER_SIG SA_SIGINFO ∈ pre /\
  calloc_ok h = true /\ sigaction_ok h = true.
Proof.
  intros h argv pre.
  apply (timers_created_after_handler h argv pre
           (timer_create CLOCK_REALTIME SIGEV_SIGNAL TIMER_SIG 0)
           [perror "timer_create"]).
  - vm_compute. reflexivity.
  - reflexivity.
Defined.

Section Failure.
Context (h : host).

End Failure.


